(** * Galaxy: configuration store, in-memory backend and status reporting

    A shallow embedding of the galaxy configuration layer:
    - [MemoryBackend] (config package, src/galaxy.go), the in-process
      backend with its test override hooks;
    - [AppConfig], the versioned record (code not in src/, modelled from
      the spec);
    - the [Store] operations on apps and pools (code not in src/, modelled
      from the spec over the in-memory backend);
    - the service registry lookup (modelled from the spec) and the
      [status] command of src/discovery/status.go. *)

From Stdlib Require Import String Ascii List Sorted.
From stdpp Require Import base gmap strings list fin_maps pretty.

Import ListNotations.
Open Scope string_scope.

(** ** Go values *)

(** A Go [error] value; [None] in a result position is [nil]. *)
Inductive error := Error (msg : string).

(** A Go [map[string]string]. A nil map and an empty map behave the same
    for every operation of the backend (reads see no entry, [delete] does
    nothing, and the writers replace a nil set by a fresh map), so both
    are the empty [gmap]. *)
Abbreviation strmap := (gmap string string).

(** ** The in-memory backend (src/galaxy.go, package config) *)

(** The struct [MemoryBackend]: the [maps] field and the optional override
    functions ([nil] is [None]). An override is a Go closure, which can
    hold the backend and write its [maps]: the overrides of the writing
    methods ([AddMember], [RemoveMember], [SetMulti]) are modelled as
    functions of their arguments and of the current [maps] that return
    their result and the new [maps]. The overrides of [Members], [Keys]
    and [Notify] are modelled as functions of their arguments; the
    embedding takes them to leave [maps] as it is. *)
Record MemoryBackend := {
  maps : gmap string strmap;
  MembersFunc : option (string -> list string * option error);
  KeysFunc : option (string -> list string * option error);
  AddMemberFunc : option (string -> string -> gmap string strmap ->
                          (Z * option error) * gmap string strmap);
  RemoveMemberFunc : option (string -> string -> gmap string strmap ->
                             (Z * option error) * gmap string strmap);
  NotifyFunc : option (string -> string -> Z * option error);
  SetMultiFunc : option (string -> strmap -> gmap string strmap ->
                         (string * option error) * gmap string strmap)
}.

(** [NewMemoryBackend]: empty maps, no override. *)
Definition NewMemoryBackend : MemoryBackend := {|
  maps := ∅; MembersFunc := None; KeysFunc := None; AddMemberFunc := None;
  RemoveMemberFunc := None; NotifyFunc := None; SetMultiFunc := None |}.

Definition with_maps (r : MemoryBackend) (m : gmap string strmap) : MemoryBackend := {|
  maps := m; MembersFunc := MembersFunc r; KeysFunc := KeysFunc r;
  AddMemberFunc := AddMemberFunc r; RemoveMemberFunc := RemoveMemberFunc r;
  NotifyFunc := NotifyFunc r; SetMultiFunc := SetMultiFunc r |}.

(** [r.maps[key]]: the zero value (nil map) when absent. *)
Definition get_set (m : gmap string strmap) (key : string) : strmap :=
  default ∅ (m !! key).

(** *** Keys: [*] is replaced by [.*] and the result compiled as a Go
    regular expression, matched with [MatchString] (unanchored). *)

(** [strings.NewReplacer("*", ".*").Replace]. *)
Fixpoint replace_star (s : string) : string :=
  match s with
  | EmptyString => EmptyString
  | String c s' =>
      if Ascii.eqb c "*" then String "." (String "*" (replace_star s'))
      else String c (replace_star s')
  end.

(** The regular expressions built here: a sequence of atoms, each possibly
    followed by [*]. The embedding covers the fragment of Go's syntax made
    of ASCII literals, [.] and [*]; [compile] returns [None] for an
    expression outside it (any other metacharacter or a non-ASCII byte),
    and for a [*] without an argument, which Go rejects too. *)
Inductive atom := AnyChar | Lit (c : ascii).
Definition piece : Type := atom * bool.

Definition re_meta : list ascii :=
  ["\"; "+"; "?"; "("; ")"; "|"; "["; "]"; "{"; "}"; "^"; "$"]%char.

Definition atom_of (c : ascii) : option atom :=
  if Ascii.eqb c "." then Some AnyChar
  else if existsb (Ascii.eqb c) re_meta then None
  else if Nat.leb 128 (nat_of_ascii c) then None
  else Some (Lit c).

Fixpoint compile (s : string) : option (list piece) :=
  match s with
  | EmptyString => Some []
  | String c s' =>
      if Ascii.eqb c "*" then None
      else match atom_of c with
           | None => None
           | Some a =>
               match s' with
               | String d s'' =>
                   if Ascii.eqb d "*" then
                     match compile s'' with
                     | Some r => Some ((a, true) :: r)
                     | None => None
                     end
                   else match compile s' with
                        | Some r => Some ((a, false) :: r)
                        | None => None
                        end
               | EmptyString => Some [(a, false)]
               end
           end
  end.

(** Go's [.] matches any character except a newline (no [s] flag). The
    matcher works on bytes, which agrees with Go's rune matching on ASCII
    keys. *)
Definition atom_ok (a : atom) (c : ascii) : bool :=
  match a with
  | AnyChar => negb (Ascii.eqb c "010")
  | Lit d => Ascii.eqb d c
  end.

(** [match_prefix re s]: [re] matches some prefix of [s]. *)
Fixpoint match_prefix (re : list piece) : string -> bool :=
  match re with
  | [] => fun _ => true
  | (a, false) :: re' => fun s =>
      match s with
      | EmptyString => false
      | String c s' => atom_ok a c && match_prefix re' s'
      end
  | (a, true) :: re' =>
      fix go (s : string) : bool :=
        match_prefix re' s ||
        match s with
        | EmptyString => false
        | String c s' => atom_ok a c && go s'
        end
  end.

(** [re.MatchString(s)]: a match anywhere in [s]. *)
Fixpoint MatchString (re : list piece) (s : string) : bool :=
  match_prefix re s ||
  match s with
  | EmptyString => false
  | String _ s' => MatchString re s'
  end.

(** [Keys]: [None] when the compiled expression is outside the modelled
    fragment. The order of the keys is Go's map order, left unspecified;
    the embedding uses the order of [map_to_list]. *)
Definition Keys (r : MemoryBackend) (key : string)
  : option (list string * option error) :=
  match KeysFunc r with
  | Some f => Some (f key)
  | None =>
      match compile (replace_star key) with
      | None => None
      | Some re =>
          Some (List.filter (MatchString re) (map fst (map_to_list (maps r))), None)
      end
  end.

(** *** Key and set operations

    Each operation is split into its body on [r.maps] ([*_maps]) and the
    method, which first hands the call to the override when one is set. *)

Definition Delete_maps (m : gmap string strmap) (key : string) : Z * gmap string strmap :=
  match m !! key with
  | Some _ => (1%Z, delete key m)
  | None => (0%Z, m)
  end.

Definition Delete (r : MemoryBackend) (key : string) : (Z * option error) * MemoryBackend :=
  let '(n, m) := Delete_maps (maps r) key in ((n, None), with_maps r m).

Definition AddMember_maps (m : gmap string strmap) (key value : string)
  : Z * gmap string strmap :=
  let set := get_set m key in
  (1%Z, <[key := <[value := "1"]> set]> m).

Definition AddMember (r : MemoryBackend) (key value : string)
  : (Z * option error) * MemoryBackend :=
  match AddMemberFunc r with
  | Some f => let '(res, m) := f key value (maps r) in (res, with_maps r m)
  | None => let '(n, m) := AddMember_maps (maps r) key value in ((n, None), with_maps r m)
  end.

Definition RemoveMember_maps (m : gmap string strmap) (key value : string)
  : Z * gmap string strmap :=
  match m !! key with
  | None => (0%Z, m)
  | Some set =>
      match set !! value with
      | Some _ => (1%Z, <[key := delete value set]> m)
      | None => (0%Z, m)
      end
  end.

Definition RemoveMember (r : MemoryBackend) (key value : string)
  : (Z * option error) * MemoryBackend :=
  match RemoveMemberFunc r with
  | Some f => let '(res, m) := f key value (maps r) in (res, with_maps r m)
  | None => let '(n, m) := RemoveMember_maps (maps r) key value in ((n, None), with_maps r m)
  end.

Definition Members (r : MemoryBackend) (key : string) : list string * option error :=
  match MembersFunc r with
  | Some f => f key
  | None => (map fst (map_to_list (get_set (maps r) key)), None)
  end.

Definition GetAll (r : MemoryBackend) (key : string) : strmap * option error :=
  (get_set (maps r) key, None).

Definition SetMulti_maps (m : gmap string strmap) (key : string) (values : strmap)
  : gmap string strmap :=
  <[key := values]> m.

(** [r.maps[key] = values]. Go stores the caller's map itself (maps are
    references), so a map stored under two keys, or still written by the
    caller, is shared; the embedding stores its value. The two agree as
    long as no stored map is shared, which the properties below take as
    given: each key's map is written only through the backend and under
    that key. *)
Definition SetMulti (r : MemoryBackend) (key : string) (values : strmap)
  : (string * option error) * MemoryBackend :=
  match SetMultiFunc r with
  | Some f => let '(res, m) := f key values (maps r) in (res, with_maps r m)
  | None => (("OK", None), with_maps r (SetMulti_maps (maps r) key values))
  end.

(** The member set of a key, as the set of its fields. *)
Definition member_set (r : MemoryBackend) (key : string) : gset string :=
  dom (get_set (maps r) key).

(** A backend with no override holding one pool of an environment, with
    one member. *)
Definition sample_backend : MemoryBackend :=
  with_maps NewMemoryBackend
    {[ "pools:prod" := {[ "web" := "true" ]};
       "pool:prod:web" := {[ "a" := "true" ]} ]}.

(** ** The versioned record [AppConfig] *)

(** Modelled from the spec: config.AppConfig (its source, app_config.go,
    is not in src/; only its test app_config_test.go is). The spec (section
    3 and section 9) stores a counter on the record and makes the counter
    the sole source of the order of [ID]; the content hash it mentions is
    left open there (section 9) and orders nothing, and a fresh record has
    [ID] 1 (TestID), so [ID] is the counter. [ID] is a Go [int64]
    (TestContainerName formats it with [strconv.FormatInt]; section 3 makes
    it 64-bit): the counter is an [int64] and advancing it wraps around as
    Go's integer addition does. *)
Record AppConfig := {
  cfg_name : string;
  cfg_image : string;
  cfg_version : string;
  cfg_env : strmap;
  cfg_counter : Z
}.

(** Go's [int64] arithmetic: the result is taken modulo 2^64 into
    [-2^63, 2^63). *)
Definition wrap64 (z : Z) : Z := (z + 2 ^ 63) mod 2 ^ 64 - 2 ^ 63.

Definition NewAppConfig (name image : string) : AppConfig := {|
  cfg_name := name; cfg_image := image; cfg_version := ""; cfg_env := ∅;
  cfg_counter := 1 |}.

Definition ID (s : AppConfig) : Z := cfg_counter s.

Definition Version (s : AppConfig) : string := cfg_version s.
Definition Env (s : AppConfig) : strmap := cfg_env s.
Definition EnvGet (s : AppConfig) (key : string) : string := default "" (cfg_env s !! key).

(** Modelled from the spec: every mutator advances the stored counter,
    whether or not the field changes (section 4.2). *)
Definition SetVersion (s : AppConfig) (version : string) : AppConfig := {|
  cfg_name := cfg_name s; cfg_image := cfg_image s; cfg_version := version;
  cfg_env := cfg_env s; cfg_counter := wrap64 (cfg_counter s + 1) |}.

Definition EnvSet (s : AppConfig) (key value : string) : AppConfig := {|
  cfg_name := cfg_name s; cfg_image := cfg_image s; cfg_version := cfg_version s;
  cfg_env := <[key := value]> (cfg_env s); cfg_counter := wrap64 (cfg_counter s + 1) |}.

Definition EnvUnset (s : AppConfig) (key : string) : AppConfig := {|
  cfg_name := cfg_name s; cfg_image := cfg_image s; cfg_version := cfg_version s;
  cfg_env := delete key (cfg_env s); cfg_counter := wrap64 (cfg_counter s + 1) |}.

Definition ContainerName (s : AppConfig) : string :=
  cfg_name s ++ "_" ++ pretty (ID s).

(** A call on the record, and the [ID] read after each call of a sequence. *)
Inductive Mutation :=
  | MSetVersion (version : string)
  | MEnvSet (key value : string)
  | MEnvUnset (key : string).

Definition apply_mutation (s : AppConfig) (op : Mutation) : AppConfig :=
  match op with
  | MSetVersion v => SetVersion s v
  | MEnvSet k v => EnvSet s k v
  | MEnvUnset k => EnvUnset s k
  end.

Fixpoint ids_after (s : AppConfig) (ops : list Mutation) : list Z :=
  match ops with
  | [] => []
  | op :: ops' =>
      let s' := apply_mutation s op in ID s' :: ids_after s' ops'
  end.

(** Modelled from the spec: the field map a record is persisted as, with
    the counter as a field of its own (section 9). *)
Definition encode_config (s : AppConfig) : strmap :=
  map_fold (fun k v acc => <[("env:" ++ k)%string := v]> acc)
    (<["version" := cfg_version s]> (<["image" := cfg_image s]>
       (<["id" := pretty (cfg_counter s)]> ∅)))
    (cfg_env s).

(** ** The store (apps and pools)

    Modelled from the spec: config.Store (store.go is not in src/; only
    the CLI commands of src/galaxy.go call it). The operations follow
    section 4.3 over the in-memory backend as [NewMemoryBackend] builds it,
    with no override, so they act on its [maps]. The change notification
    they publish is [Notify], which with no override only answers 0 and
    leaves [maps] as it is. Keys: an app's
    config is the hash [app:ENV:NAME] (the layout the spec's
    [Keys("app:prod:*")] scenario uses), a pool's members the set
    [pool:ENV:POOL], and the pools created in an environment the set
    [pools:ENV]. *)

Definition app_key (env name : string) : string := "app:" ++ env ++ ":" ++ name.
Definition pool_key (env pool : string) : string := "pool:" ++ env ++ ":" ++ pool.
Definition pools_key (env : string) : string := "pools:" ++ env.

(** [appExists]: presence of the app's config key. *)
Definition appExists (m : gmap string strmap) (name env : string) : bool * option error :=
  match m !! app_key env name with
  | Some _ => (true, None)
  | None => (false, None)
  end.

Definition listPools (m : gmap string strmap) (env : string) : list string :=
  map fst (map_to_list (get_set m (pools_key env))).

Definition listAssignments (m : gmap string strmap) (env pool : string) : list string :=
  map fst (map_to_list (get_set m (pool_key env pool))).

(** [createApp]: an existing app is the boolean outcome [false], not an
    error (sections 4.3 and 7); a new one persists an empty record. *)
Definition createApp (m : gmap string strmap) (name env : string)
  : (bool * option error) * gmap string strmap :=
  match appExists m name env with
  | (true, _) => ((false, None), m)
  | (false, _) =>
      ((true, None), SetMulti_maps m (app_key env name) (encode_config (NewAppConfig name "")))
  end.

(** [deleteApp]: removes the config key, then the app from every pool of
    the environment. *)
Definition deleteApp (m : gmap string strmap) (name env : string)
  : (bool * option error) * gmap string strmap :=
  let '(n, m1) := Delete_maps m (app_key env name) in
  let m2 := fold_left (fun acc pool => snd (RemoveMember_maps acc (pool_key env pool) name))
              (listPools m1 env) m1 in
  ((Z.eqb n 1, None), m2).

(** The fold of [deleteApp] over the pools: the app removed from each. *)
Definition remove_from_pools (m : gmap string strmap) (env name : string) (pools : list string)
  : gmap string strmap :=
  fold_left (fun acc pool => snd (RemoveMember_maps acc (pool_key env pool) name)) pools m.

(** [assign] registers the pool in the environment and adds the app to it;
    the app's existence is the caller's precondition, not checked. *)
Definition assign (m : gmap string strmap) (app env pool : string)
  : (bool * option error) * gmap string strmap :=
  let m1 := snd (AddMember_maps m (pools_key env) pool) in
  let m2 := snd (AddMember_maps m1 (pool_key env pool) app) in
  ((true, None), m2).

Definition unassign (m : gmap string strmap) (app env pool : string)
  : (bool * option error) * gmap string strmap :=
  let '(n, m1) := RemoveMember_maps m (pool_key env pool) app in
  ((Z.eqb n 1, None), m1).

Definition createPool (m : gmap string strmap) (pool env : string)
  : (bool * option error) * gmap string strmap :=
  if bool_decide (pool ∈ listPools m env) || negb (bool_decide (listAssignments m env pool = []))
  then ((false, None), m)
  else ((true, None), snd (AddMember_maps m (pools_key env) pool)).

Definition deletePool (m : gmap string strmap) (pool env : string)
  : (bool * option error) * gmap string strmap :=
  if bool_decide (listAssignments m env pool = []) then
    let m1 := snd (Delete_maps m (pool_key env pool)) in
    let m2 := snd (RemoveMember_maps m1 (pools_key env) pool) in
    ((true, None), m2)
  else ((false, None), m).

(** Unassigning a list of apps from one pool, one call after the other. *)
Definition unassign_all (m : gmap string strmap) (env pool : string) (apps : list string)
  : gmap string strmap :=
  fold_left (fun acc app => snd (unassign acc app env pool)) apps m.

(** ** The service registry *)

(** A registration as the registry stores it. *)
Record ServiceRegistration := {
  ContainerID : string;
  RegImage : string;
  ExternalAddr : string;
  InternalAddr : string;
  StartedAt : Z;
  Expires : Z
}.

(** Modelled from the spec: the registry (registry.go is not in src/;
    src/discovery/status.go calls it). A registration lives under one key
    per environment, pool and container, with the expiry time the backend
    enforces (section 4.4); time is an explicit argument. *)
Definition reg_key (env pool container : string) : string :=
  "reg:" ++ env ++ ":" ++ pool ++ ":" ++ container.

Abbreviation registry := (gmap string (ServiceRegistration * Z)).

Definition register (st : registry) (env pool : string) (r : ServiceRegistration)
  (ttl now : Z) : registry :=
  <[reg_key env pool (ContainerID r) := (r, (now + ttl)%Z)]> st.

(** Modelled from the spec: [nil, nil] when the key was never written or
    its time to live has lapsed. *)
Definition GetServiceRegistration (st : registry) (env pool container : string) (now : Z)
  : option ServiceRegistration * option error :=
  match st !! reg_key env pool container with
  | Some (r, exp) => if Z.ltb now exp then (Some r, None) else (None, None)
  | None => (None, None)
  end.

(** ** The [status] command (src/discovery/status.go) *)

(** A managed container: its id, image, creation time and environment
    ([serviceRuntime.EnvFor]). *)
Record Container := {
  ID_ : string;
  Image_ : string;
  Created : Z;
  EnvFor : strmap
}.

(** [s[0:12]]: Go panics when [s] is shorter than 12 bytes. *)
Definition slice12 (s : string) : option string :=
  if Nat.ltb (String.length s) 12 then None else Some (substring 0 12 s).

(** What one run of [status] ends with: the table rows it prints, the
    error line it logs when a lookup fails (the table is then not
    printed), or a panic. *)
Inductive Outcome (A : Type) :=
  | Done (rows : A)
  | Failed (msg : string)
  | Panicked.
Arguments Done {A} rows.
Arguments Failed {A} msg.
Arguments Panicked {A}.

Definition status_header : list string :=
  ["CONTAINER ID"; "IMAGE"; "EXTERNAL"; "INTERNAL"; "CREATED"; "EXPIRES"].

Section Status.
(** The clock ([time.Now()]), [utils.HumanDuration], and the registry
    lookup for the environment and pool of the command line. *)
Variable now : Z.
Variable HumanDuration : Z -> string.
Variable lookup : Container -> option ServiceRegistration * option error.

Definition registered_row (r : ServiceRegistration) : option (list string) :=
  match slice12 (ContainerID r) with
  | None => None
  | Some id => Some [id; RegImage r; ExternalAddr r; InternalAddr r;
                     HumanDuration (now - StartedAt r)%Z ++ " ago";
                     "In " ++ HumanDuration (Expires r - now)%Z]
  end.

Definition untracked_row (c : Container) : option (list string) :=
  match slice12 (ID_ c) with
  | None => None
  | Some id => Some [id; Image_ c; ""; ""; HumanDuration (now - Created c)%Z ++ " ago"; ""]
  end.

Definition cons_row (row : list string) (o : Outcome (list (list string)))
  : Outcome (list (list string)) :=
  match o with
  | Done rows => Done (row :: rows)
  | Failed msg => Failed msg
  | Panicked => Panicked
  end.

(** The loop over the containers. *)
Fixpoint status_rows (containers : list Container) : Outcome (list (list string)) :=
  match containers with
  | [] => Done []
  | c :: cs =>
      let name := default "" (EnvFor c !! "GALAXY_APP") in
      match lookup c with
      | (_, Some (Error e)) =>
          Failed ("ERROR: Unable to determine status of " ++ name ++ ": " ++ e)
      | (Some r, None) =>
          match registered_row r with
          | Some row => cons_row row (status_rows cs)
          | None => Panicked
          end
      | (None, None) =>
          match untracked_row c with
          | Some row => cons_row row (status_rows cs)
          | None => Panicked
          end
      end
  end.

(** [status]: [ManagedContainers] failing panics; otherwise the header
    and the rows. *)
Definition status (managed : list Container * option error) : Outcome (list (list string)) :=
  match managed with
  | (_, Some _) => Panicked
  | (containers, None) =>
      match status_rows containers with
      | Done rows => Done (status_header :: rows)
      | Failed msg => Failed msg
      | Panicked => Panicked
      end
  end.
End Status.

(** ** The command-line commands (src/galaxy.go, package main)

    A command ends in [log.Fatal] (the process exits with the message) or
    goes on; [Ok] carries what it goes on with. The store calls are taken
    as arguments: [AppExists] is [configStore.AppExists]. Help text,
    [initStore] and [initRuntime] have no effect on the outcome. *)
Inductive Cli (A : Type) :=
  | Fatal (msg : string)
  | Ok (a : A).
Arguments Fatal {A} msg.
Arguments Ok {A} a.

Definition cli_bind {A B} (x : Cli A) (f : A -> Cli B) : Cli B :=
  match x with
  | Fatal msg => Fatal msg
  | Ok a => f a
  end.

Notation "'let*' x := c 'in' k" := (cli_bind c (fun x => k))
  (at level 200, x name, c at level 100, k at level 200).

(** [c.Args().First()] and [c.Args().Tail()]. *)
Definition First (args : list string) : string :=
  match args with a :: _ => a | [] => "" end.

Definition Tail (args : list string) : list string :=
  match args with _ :: (_ :: _) as t => t | _ => [] end.

Definition ensureEnvArg (env : string) : Cli unit :=
  if String.eqb env "" then Fatal "ERROR: env is required.  Pass --env or set GALAXY_ENV"
  else Ok tt.

Definition ensurePoolArg (pool : string) : Cli unit :=
  if String.eqb pool "" then Fatal "ERROR: pool is required.  Pass --pool or set GALAXY_POOL"
  else Ok tt.

Definition ensureAppParam (AppExists : string -> string -> bool * option error)
  (args : list string) (env : string) : Cli string :=
  let app := First args in
  if String.eqb app "" then Fatal "ERROR: app name missing"
  else match AppExists app env with
       | (_, Some (Error e)) => Fatal ("ERROR: can't deteremine if " ++ app ++ " exists: " ++ e)
       | (false, None) => Fatal ("ERROR: " ++ app ++ " does not exist. Create it first.")
       | (true, None) => Ok app
       end.

(** The commander call a command makes. *)
Inductive Call :=
  | CallAppCreate (app env : string)
  | CallAppDelete (app env : string)
  | CallAppDeploy (app env version : string)
  | CallAppRestart (app env : string)
  | CallAppRun (app env : string) (cmd : list string)
  | CallAppAssign (app env pool : string)
  | CallAppUnassign (app env pool : string)
  | CallAppShell (app env pool : string)
  | CallConfigList (app env : string)
  | CallConfigSet (app env : string) (args : list string)
  | CallConfigUnset (app env : string) (args : list string)
  | CallConfigGet (app env : string) (args : list string).

Definition appCreate (env : string) (args : list string) : Cli Call :=
  let* _ := ensureEnvArg env in
  let app := First args in
  if String.eqb app "" then Fatal "ERROR: app name missing"
  else Ok (CallAppCreate app env).

Definition appDelete AppExists (env : string) (args : list string) : Cli Call :=
  let* _ := ensureEnvArg env in
  let* app := ensureAppParam AppExists args env in
  Ok (CallAppDelete app env).

(** [appDeploy]: without a version it logs an error and returns ([None]). *)
Definition appDeploy AppExists (env : string) (args : list string) : Cli (option Call) :=
  let* _ := ensureEnvArg env in
  let* app := ensureAppParam AppExists args env in
  let version := match Tail args with [v] => v | _ => "" end in
  if String.eqb version "" then Ok None
  else Ok (Some (CallAppDeploy app env version)).

Definition appRestart AppExists (env : string) (args : list string) : Cli Call :=
  let* app := ensureAppParam AppExists args env in
  Ok (CallAppRestart app env).

Definition appRun AppExists (env : string) (args : list string) : Cli Call :=
  let* _ := ensureEnvArg env in
  let* app := ensureAppParam AppExists args env in
  if Nat.ltb (length args) 2 then Fatal "ERROR: Missing command to run."
  else Ok (CallAppRun app env (List.tl args)).

Definition appShell AppExists (env pool : string) (args : list string) : Cli Call :=
  let* _ := ensureEnvArg env in
  let* app := ensureAppParam AppExists args env in
  Ok (CallAppShell app env pool).

Definition configList AppExists (env : string) (args : list string) : Cli Call :=
  let* _ := ensureEnvArg env in
  let* app := ensureAppParam AppExists args env in
  Ok (CallConfigList app env).

Definition configSet AppExists (env : string) (args : list string) : Cli Call :=
  let* _ := ensureEnvArg env in
  let* app := ensureAppParam AppExists args env in
  Ok (CallConfigSet app env (Tail args)).

Definition configUnset AppExists (env : string) (args : list string) : Cli Call :=
  let* _ := ensureEnvArg env in
  let* app := ensureAppParam AppExists args env in
  Ok (CallConfigUnset app env (Tail args)).

Definition configGet AppExists (env : string) (args : list string) : Cli Call :=
  let* _ := ensureEnvArg env in
  let* app := ensureAppParam AppExists args env in
  Ok (CallConfigGet app env (Tail args)).

Definition poolAssign AppExists (env pool : string) (args : list string) : Cli Call :=
  let* _ := ensureEnvArg env in
  let* _ := ensurePoolArg pool in
  let* app := ensureAppParam AppExists args env in
  Ok (CallAppAssign app env pool).

Definition poolUnassign (env pool : string) (args : list string) : Cli Call :=
  let* _ := ensureEnvArg env in
  let* _ := ensurePoolArg pool in
  let app := First args in
  if String.eqb app "" then Fatal "ERROR: app name missing"
  else Ok (CallAppUnassign app env pool).

(** [strings.Join]. *)
Fixpoint join (sep : string) (l : list string) : string :=
  match l with
  | [] => ""
  | [x] => x
  | x :: xs => x ++ sep ++ join sep xs
  end.

(** [poolList]: the lines handed to [columnize.SimpleFormat]. *)
Section PoolList.
Variable ListEnvs : list string * option error.
Variable ListPools : string -> list string * option error.
Variable ListAssignments : string -> string -> list string * option error.

Fixpoint pool_rows (env : string) (pools : list string) : Cli (list string) :=
  match pools with
  | [] => Ok []
  | pool :: ps =>
      match ListAssignments env pool with
      | (_, Some (Error e)) => Fatal ("ERROR: cannot list pool assignments: " ++ e)
      | (assignments, None) =>
          let* rest := pool_rows env ps in
          Ok (join " | " [env; pool; join "," assignments] :: rest)
      end
  end.

Fixpoint env_rows (envs : list string) : Cli (list string) :=
  match envs with
  | [] => Ok []
  | env :: es =>
      match ListPools env with
      | (_, Some (Error e)) => Fatal ("ERROR: cannot list pools: " ++ e)
      | ([], None) =>
          let* rest := env_rows es in
          Ok (join " | " [env; ""; ""] :: rest)
      | (pools, None) =>
          let* rows := pool_rows env pools in
          let* rest := env_rows es in
          Ok (rows ++ rest)%list
      end
  end.

Definition poolList (env : string) : Cli (list string) :=
  let* envs := (if String.eqb env "" then
             match ListEnvs with
             | (_, Some (Error e)) => Fatal ("ERROR: " ++ e)
             | (es, None) => Ok es
             end
           else Ok [env]) in
  let* rows := env_rows envs in
  Ok ("ENV | POOL | APPS " :: rows).
End PoolList.

(** ** Glob matching as the spec states it

    The spec's reading of [keys(pattern)]: a glob in which [*] matches any
    sequence of characters and every other character itself, matched
    against the whole key. Compared below with [Keys]. *)
Fixpoint glob (p : string) : string -> bool :=
  match p with
  | EmptyString => fun s => match s with EmptyString => true | _ => false end
  | String c p' =>
      if Ascii.eqb c "*" then
        fix go (s : string) : bool :=
          glob p' s || match s with EmptyString => false | String _ s' => go s' end
      else fun s =>
        match s with
        | EmptyString => false
        | String d s' => Ascii.eqb c d && glob p' s'
        end
  end.

(** The patterns the embedding of [Keys] covers: ASCII characters that are
    not metacharacters of Go's syntax, [.] and [*]. *)
Fixpoint plain_pattern (p : string) : bool :=
  match p with
  | EmptyString => true
  | String c p' =>
      (Ascii.eqb c "*" || match atom_of c with Some _ => true | None => false end)
      && plain_pattern p'
  end.

Fixpoint no_newline (s : string) : bool :=
  match s with
  | EmptyString => true
  | String c s' => negb (Ascii.eqb c "010") && no_newline s'
  end.

(** The expression a plain pattern compiles to. *)
Fixpoint glob_pieces (p : string) : list piece :=
  match p with
  | EmptyString => []
  | String c p' =>
      if Ascii.eqb c "*" then (AnyChar, true) :: glob_pieces p'
      else (default (Lit c) (atom_of c), false) :: glob_pieces p'
  end.

(** Patterns of plain characters only (no [*], no [.]): each compiles to
    a literal. *)
Fixpoint literal_pattern (p : string) : bool :=
  match p with
  | EmptyString => true
  | String c p' =>
      negb (Ascii.eqb c "*")
      && match atom_of c with Some (Lit _) => true | _ => false end
      && literal_pattern p'
  end.

(** Sample inputs: a container, and a store where only the app web exists, in prod. *)
Definition demo_container (id app : string) : Container :=
  {| ID_ := id; Image_ := "img"; Created := 0; EnvFor := {[ "GALAXY_APP" := app ]} |}.

Definition demo_exists (app env : string) : bool * option error :=
  (String.eqb app "web" && String.eqb env "prod", None).


(** A row of the table: six columns, the first of them twelve
    characters long. *)
Definition table_row (row : list string) : Prop :=
  exists id rest, row = id :: rest /\ String.length id = 12 /\ length rest = 5.

(** ** Tests *)

Example Keys_star_example :
  Keys (with_maps NewMemoryBackend {[ "app:prod:foo" := ∅ ]}) "app:*" = Some (["app:prod:foo"], None).
Proof. vm_compute. reflexivity. Qed.

Example TestIDAlwaysIncrements_run :
  ids_after (NewAppConfig "foo" "")
    [MEnvSet "k1" "v1"; MEnvSet "k1" "v2"; MEnvSet "k1" "v3"; MSetVersion "blah"; MSetVersion "bar"]
  = [2; 3; 4; 5; 6]%Z.
Proof. vm_compute. reflexivity. Qed.

(** * Properties *)

(** ** AppConfig *)

Local Open Scope Z_scope.

Lemma apply_mutation_ID (s : AppConfig) (op : Mutation) :
  ID (apply_mutation s op) = wrap64 (ID s + 1).
Proof. by destruct op. Qed.

Lemma wrap64_small (z : Z) : -2 ^ 63 <= z < 2 ^ 63 -> wrap64 z = z.
Proof.
  intros Hz. unfold wrap64. rewrite Z.mod_small; lia.
Qed.

Lemma wrap64_range (z : Z) : -2 ^ 63 <= wrap64 z < 2 ^ 63.
Proof.
  unfold wrap64. pose proof (Z.mod_pos_bound (z + 2 ^ 63) (2 ^ 64) ltac:(lia)). lia.
Qed.

Lemma wrap64_add_wrap64 (a b : Z) : wrap64 (wrap64 a + b) = wrap64 (a + b).
Proof.
  unfold wrap64. f_equal.
  replace ((a + 2 ^ 63) mod 2 ^ 64 - 2 ^ 63 + b + 2 ^ 63)
    with ((a + 2 ^ 63) mod 2 ^ 64 + b) by lia.
  rewrite Z.add_mod_idemp_l by lia. f_equal. lia.
Qed.

(** The [ID] read after the calls [ops], against the number of calls. *)
Lemma ID_fold_wrap64 (s : AppConfig) (ops : list Mutation) :
  wrap64 (ID (fold_left apply_mutation ops s)) = wrap64 (ID s + Z.of_nat (length ops)).
Proof.
  revert s. induction ops as [|op ops IH]; intros s; simpl.
  - f_equal. lia.
  - rewrite IH, apply_mutation_ID, wrap64_add_wrap64. f_equal. lia.
Qed.

Lemma ID_fold_range (s : AppConfig) (ops : list Mutation) :
  ops <> [] -> -2 ^ 63 <= ID (fold_left apply_mutation ops s) < 2 ^ 63.
Proof.
  revert s. induction ops as [|op ops IH]; intros s Hne; [done|]. simpl.
  destruct ops as [|op' ops'].
  - simpl. rewrite apply_mutation_ID. apply wrap64_range.
  - apply IH. discriminate.
Qed.

Lemma ID_fold_in_ids_after (s : AppConfig) (ops : list Mutation) :
  ops <> [] -> In (ID (fold_left apply_mutation ops s)) (ids_after s ops).
Proof.
  revert s. induction ops as [|op ops IH]; intros s Hne; [done|]. simpl.
  destruct ops as [|op' ops']; [by left|].
  right. apply IH. discriminate.
Qed.

Lemma LocallySorted_lt_head (x : Z) (l : list Z) :
  LocallySorted Z.lt (x :: l) -> forall y, In y l -> x < y.
Proof.
  intros H. apply Sorted_LocallySorted_iff in H.
  apply Sorted_StronglySorted in H; [|intros a b c; lia].
  apply StronglySorted_inv in H as [_ HF]. by apply List.Forall_forall.
Qed.

(** C1 (amended): [ID] is an [int64] counter. Along a sequence of
    [SetVersion], [EnvSet] and [EnvUnset] calls on a record, the [ID] read
    after each call is strictly greater than the one read before it,
    repeated identical calls included, as long as the counter does not
    pass the largest [int64] (2^63 - 1). *)
Theorem ID_increases_until_wrap (s : AppConfig) (ops : list Mutation) :
  -2 ^ 63 <= ID s -> ID s + Z.of_nat (length ops) < 2 ^ 63 ->
  LocallySorted Z.lt (ID s :: ids_after s ops).
Proof.
  revert s. induction ops as [|op ops IH]; intros s Hlo Hhi; simpl.
  - constructor.
  - simpl length in Hhi.
    assert (Hs : ID (apply_mutation s op) = ID s + 1).
    { rewrite apply_mutation_ID. apply wrap64_small. lia. }
    constructor.
    + apply IH; rewrite Hs; lia.
    + rewrite Hs. lia.
Qed.

Lemma ID_increases_until_wrap_witness :
  LocallySorted Z.lt
    (ID (NewAppConfig "foo" "") ::
     ids_after (NewAppConfig "foo" "")
       [MEnvSet "k1" "v1"; MEnvSet "k1" "v2"; MEnvSet "k1" "v3"; MSetVersion "blah"; MSetVersion "bar"]).
Proof.
  apply ID_increases_until_wrap; cbn -[Z.pow]; lia.
Defined.

(** C1 as stated fails: from a fresh record, 2^63 - 1 calls bring the
    counter to the largest [int64], and the next [ID] read wraps to
    -2^63, below the first one. *)
Lemma ID_wraps_counterexample :
  exists n : nat,
    ~ LocallySorted Z.lt (ID (NewAppConfig "foo" "") ::
                          ids_after (NewAppConfig "foo" "") (repeat (MSetVersion "1") n)).
Proof.
  pose proof (Z2Nat.id (2 ^ 63 - 1) ltac:(lia)) as Hn.
  set (n := Z.to_nat (2 ^ 63 - 1)) in *. clearbody n.
  exists n. intros Hsorted.
  set (ops := repeat (MSetVersion "1") n).
  assert (Hlen : Z.of_nat (length ops) = 2 ^ 63 - 1) by (unfold ops; by rewrite repeat_length).
  assert (Hne : ops <> []) by (intros He; rewrite He in Hlen; simpl in Hlen; lia).
  pose proof (ID_fold_wrap64 (NewAppConfig "foo" "") ops) as Hw.
  rewrite wrap64_small in Hw by (by apply ID_fold_range).
  rewrite Hlen in Hw. change (ID (NewAppConfig "foo" "")) with 1%Z in Hw.
  replace (1 + (2 ^ 63 - 1)) with (2 ^ 63) in Hw by lia.
  change (wrap64 (2 ^ 63)) with (- 2 ^ 63) in Hw.
  pose proof (LocallySorted_lt_head _ _ Hsorted _ (ID_fold_in_ids_after _ _ Hne)) as Hlt.
  rewrite Hw in Hlt. change (ID (NewAppConfig "foo" "")) with 1%Z in Hlt. lia.
Qed.

Local Close Scope Z_scope.

(** ** In-memory backend: SetMulti and GetAll *)

Lemma get_set_insert_eq (m : gmap string strmap) (key : string) (v : strmap) :
  get_set (<[key := v]> m) key = v.
Proof. unfold get_set. by rewrite lookup_insert_eq. Qed.

Lemma get_set_insert_ne (m : gmap string strmap) (k key : string) (v : strmap) :
  k ≠ key -> get_set (<[k := v]> m) key = get_set m key.
Proof. intros Hne. unfold get_set. by rewrite lookup_insert_ne. Qed.

(** C9 (amended): with no [SetMultiFunc] override, [SetMulti(key, values)]
    answers ["OK"] without error and a following [GetAll(key)] returns
    exactly [values]: no field of an earlier version of the key is left. *)
Theorem SetMulti_GetAll (r : MemoryBackend) (key : string) (values : strmap) :
  SetMultiFunc r = None ->
  fst (SetMulti r key values) = ("OK", None) /\
  GetAll (snd (SetMulti r key values)) key = (values, None).
Proof.
  intros H. unfold SetMulti, GetAll, SetMulti_maps. rewrite H. simpl.
  split; [done|]. by rewrite get_set_insert_eq.
Qed.

Lemma SetMulti_GetAll_witness :
  SetMultiFunc NewMemoryBackend = None /\
  GetAll (snd (SetMulti (with_maps NewMemoryBackend {[ "app:prod:foo" := {[ "old" := "1" ]} ]})
                 "app:prod:foo" {[ "version" := "2" ]})) "app:prod:foo"
  = ({[ "version" := "2" ]}, None).
Proof.
  split; [reflexivity|].
  exact (proj2 (SetMulti_GetAll (with_maps NewMemoryBackend {[ "app:prod:foo" := {[ "old" := "1" ]} ]})
                  "app:prod:foo" {[ "version" := "2" ]} eq_refl)).
Defined.

(** C9 as stated fails: with a [SetMultiFunc] override the call goes to the
    override and the stored fields stay those of the earlier version. *)
Lemma SetMulti_GetAll_override_counterexample :
  let r := {| maps := {[ "app:prod:foo" := {[ "old" := "1" ]} ]};
              MembersFunc := None; KeysFunc := None; AddMemberFunc := None;
              RemoveMemberFunc := None; NotifyFunc := None;
              SetMultiFunc := Some (fun _ _ m => (("OK", None), m)) |} in
  GetAll (snd (SetMulti r "app:prod:foo" {[ "version" := "2" ]})) "app:prod:foo"
  <> ({[ "version" := "2" ]}, None).
Proof.
  cbv zeta. intros Heq.
  apply (f_equal (fun p => fst p !! "old")) in Heq.
  vm_compute in Heq. discriminate.
Qed.

(** ** In-memory backend: redundant set mutations *)

Lemma with_maps_maps (r : MemoryBackend) : with_maps r (maps r) = r.
Proof. by destruct r. Qed.

(** C10 (amended): with no [AddMemberFunc] and no [RemoveMemberFunc]
    override, a second [AddMember(key, value)] succeeds without error and
    leaves the backend as the first left it; [AddMember] on a member
    succeeds and keeps the member set; [RemoveMember] on a non-member
    succeeds, answers 0 and changes nothing. *)
Theorem set_mutations_redundant (r : MemoryBackend) (key value : string) :
  AddMemberFunc r = None -> RemoveMemberFunc r = None ->
  (let r1 := snd (AddMember r key value) in AddMember r1 key value = ((1%Z, None), r1)) /\
  (value ∈ member_set r key ->
     fst (AddMember r key value) = (1%Z, None) /\
     member_set (snd (AddMember r key value)) key = member_set r key) /\
  (value ∉ member_set r key -> RemoveMember r key value = ((0%Z, None), r)).
Proof.
  intros HA HR. unfold AddMember, RemoveMember, AddMember_maps, RemoveMember_maps.
  rewrite HA, HR. split; [|split].
  - simpl. rewrite HA. rewrite get_set_insert_eq, insert_insert_eq, insert_insert_eq.
    reflexivity.
  - intros Hin. simpl. split; [done|].
    unfold member_set in *. simpl. rewrite get_set_insert_eq, dom_insert_L. set_solver.
  - intros Hout. unfold member_set, get_set in Hout.
    destruct (maps r !! key) as [set|] eqn:Hk; simpl; [|by rewrite with_maps_maps].
    simpl in Hout. rewrite not_elem_of_dom in Hout. rewrite Hout. by rewrite with_maps_maps.
Qed.

Lemma set_mutations_redundant_witness :
  (let r1 := snd (AddMember sample_backend "pool:prod:web" "b") in
   AddMember r1 "pool:prod:web" "b" = ((1%Z, None), r1)) /\
  fst (AddMember sample_backend "pool:prod:web" "a") = (1%Z, None) /\
  member_set (snd (AddMember sample_backend "pool:prod:web" "a")) "pool:prod:web"
    = member_set sample_backend "pool:prod:web" /\
  RemoveMember sample_backend "pool:prod:web" "zzz" = ((0%Z, None), sample_backend).
Proof.
  pose proof (set_mutations_redundant sample_backend "pool:prod:web" "b" eq_refl eq_refl) as Hb.
  pose proof (set_mutations_redundant sample_backend "pool:prod:web" "a" eq_refl eq_refl) as Ha.
  pose proof (set_mutations_redundant sample_backend "pool:prod:web" "zzz" eq_refl eq_refl) as Hz.
  assert (Hin : "a" ∈ member_set sample_backend "pool:prod:web").
  { apply elem_of_dom. vm_compute. eexists. reflexivity. }
  assert (Hout : "zzz" ∉ member_set sample_backend "pool:prod:web").
  { apply not_elem_of_dom. vm_compute. reflexivity. }
  split; [exact (proj1 Hb)|].
  split; [exact (proj1 (proj1 (proj2 Ha) Hin))|].
  split; [exact (proj2 (proj1 (proj2 Ha) Hin))|].
  exact (proj2 (proj2 Hz) Hout).
Defined.

(** C10 as stated fails: with an [AddMemberFunc] override, [AddMember] on a
    value that is already a member returns what the override returns,
    here an error. *)
Lemma AddMember_override_counterexample :
  let r := {| maps := {[ "pool:prod:web" := {[ "foo" := "1" ]} ]};
              MembersFunc := None; KeysFunc := None;
              AddMemberFunc := Some (fun _ _ m => ((0%Z, Some (Error "unavailable")), m));
              RemoveMemberFunc := None; NotifyFunc := None; SetMultiFunc := None |} in
  "foo" ∈ member_set r "pool:prod:web" /\
  fst (AddMember r "pool:prod:web" "foo") = (0%Z, Some (Error "unavailable")).
Proof.
  cbv zeta. split; [|reflexivity].
  unfold member_set, get_set. simpl. rewrite lookup_singleton_eq. simpl.
  rewrite dom_singleton_L. set_solver.
Qed.

(** ** Store: keys and set updates *)

Lemma elem_of_keys {A} (s : gmap string A) (x : string) :
  x ∈ map fst (map_to_list s) <-> is_Some (s !! x).
Proof.
  rewrite list_elem_of_In, in_map_iff. split.
  - intros [[k v] [Hk Hin]]. simpl in Hk. subst k.
    apply list_elem_of_In, elem_of_map_to_list in Hin. eauto.
  - intros [v Hv]. exists (x, v). split; [done|].
    by apply list_elem_of_In, elem_of_map_to_list.
Qed.


Lemma pools_key_pool_key_ne (e e' p : string) : pools_key e <> pool_key e' p.
Proof. unfold pools_key, pool_key. simpl. discriminate. Qed.

Lemma app_key_pools_key_ne (e n e' : string) : app_key e n <> pools_key e'.
Proof. unfold app_key, pools_key. simpl. discriminate. Qed.

Lemma get_set_RemoveMember (m : gmap string strmap) (k v k' : string) :
  get_set (snd (RemoveMember_maps m k v)) k' =
  if decide (k = k') then delete v (get_set m k) else get_set m k'.
Proof.
  unfold RemoveMember_maps, get_set.
  destruct (m !! k) as [set|] eqn:Hk; simpl.
  - destruct (set !! v) eqn:Hv; simpl.
    + case_decide; subst; [by rewrite lookup_insert_eq | by rewrite lookup_insert_ne].
    + case_decide; subst; [rewrite Hk; simpl; by rewrite delete_id | done].
  - case_decide; subst; [rewrite Hk; simpl; by rewrite delete_empty | done].
Qed.



Lemma get_set_Delete (m : gmap string strmap) (k k' : string) :
  get_set (snd (Delete_maps m k)) k' = if decide (k = k') then ∅ else get_set m k'.
Proof.
  unfold Delete_maps, get_set. destruct (m !! k) eqn:Hk; simpl.
  - case_decide; subst; [by rewrite lookup_delete_eq | by rewrite lookup_delete_ne].
  - case_decide; subst; [by rewrite Hk | done].
Qed.



Lemma remove_from_pools_gone (env name : string) (pools : list string)
  (m : gmap string strmap) (q : string) :
  q ∈ pools \/ get_set m (pool_key env q) !! name = None ->
  get_set (remove_from_pools m env name pools) (pool_key env q) !! name = None.
Proof.
  unfold remove_from_pools. revert m.
  induction pools as [|p ps IH]; intros m Hq; simpl.
  - destruct Hq as [Hq|Hq]; [set_solver | done].
  - apply IH. rewrite get_set_RemoveMember.
    destruct (decide (pool_key env p = pool_key env q)) as [Heq|Hne].
    + right. by rewrite lookup_delete_eq.
    + destruct Hq as [Hq|Hq]; [|by right].
      apply elem_of_cons in Hq as [->|Hq]; [done | by left].
Qed.

Lemma deleteApp_unfold (m : gmap string strmap) (name env : string) :
  deleteApp m name env =
  ((Z.eqb (fst (Delete_maps m (app_key env name))) 1, None),
   remove_from_pools (snd (Delete_maps m (app_key env name))) env name
     (listPools (snd (Delete_maps m (app_key env name))) env)).
Proof. unfold deleteApp. by destruct (Delete_maps m (app_key env name)). Qed.

Lemma listPools_Delete_app (m : gmap string strmap) (name env : string) :
  listPools (snd (Delete_maps m (app_key env name))) env = listPools m env.
Proof.
  unfold listPools. rewrite get_set_Delete.
  case_decide as H; [by apply app_key_pools_key_ne in H | done].
Qed.

Lemma listAssignments_nil (m : gmap string strmap) (env pool : string) :
  listAssignments m env pool = [] <-> get_set m (pool_key env pool) = ∅.
Proof.
  unfold listAssignments. rewrite <- map_to_list_empty_iff. split.
  - apply map_eq_nil.
  - intros ->. reflexivity.
Qed.

Lemma in_listPools (m : gmap string strmap) (env p : string) :
  p ∈ listPools m env <-> is_Some (get_set m (pools_key env) !! p).
Proof. apply elem_of_keys. Qed.

Lemma in_listAssignments (m : gmap string strmap) (env pool a : string) :
  a ∈ listAssignments m env pool <-> is_Some (get_set m (pool_key env pool) !! a).
Proof. apply elem_of_keys. Qed.

(** ** Store: apps *)

(** C6: a second [createApp] with the same name and environment is the
    outcome [false] without error and changes nothing, whatever the state;
    a first [createApp] succeeds and persists the empty record
    [NewAppConfig(name, "")] at the app's key. *)
Theorem createApp_second_call_noop (m : gmap string strmap) (name env : string) :
  (is_Some (m !! app_key env name) -> createApp m name env = ((false, None), m)) /\
  (m !! app_key env name = None ->
     fst (createApp m name env) = (true, None) /\
     snd (createApp m name env) !! app_key env name = Some (encode_config (NewAppConfig name "")) /\
     createApp (snd (createApp m name env)) name env = ((false, None), snd (createApp m name env))).
Proof.
  unfold createApp, appExists. split.
  - intros [v Hv]. by rewrite Hv.
  - intros Hn. rewrite Hn. simpl. unfold SetMulti_maps.
    rewrite lookup_insert_eq. done.
Qed.

Lemma createApp_second_call_noop_witness :
  (∅ : gmap string strmap) !! app_key "prod" "foo" = None /\
  createApp (snd (createApp ∅ "foo" "prod")) "foo" "prod"
  = ((false, None), snd (createApp ∅ "foo" "prod")).
Proof.
  split; [reflexivity|].
  exact (proj2 (proj2 (proj2 (createApp_second_call_noop ∅ "foo" "prod") eq_refl))).
Defined.




(** C4: [deleteApp] removes the app from the member set of every pool of
    the environment, so no pool keeps it. *)
Theorem deleteApp_clears_pools (m : gmap string strmap) (name env p : string) :
  p ∈ listPools m env -> name ∉ listAssignments (snd (deleteApp m name env)) env p.
Proof.
  intros Hp. rewrite deleteApp_unfold. simpl. rewrite in_listAssignments.
  rewrite remove_from_pools_gone; [by intros [? ?]|].
  left. by rewrite listPools_Delete_app.
Qed.

Lemma deleteApp_clears_pools_witness :
  let m := snd (assign (snd (assign (snd (createApp ∅ "foo" "prod")) "foo" "prod" "web"))
                  "foo" "prod" "worker") in
  "web" ∈ listPools m "prod" /\ "foo" ∉ listAssignments (snd (deleteApp m "foo" "prod")) "prod" "web".
Proof.
  cbv zeta. split.
  - apply in_listPools. vm_compute. eexists. reflexivity.
  - apply deleteApp_clears_pools. apply in_listPools. vm_compute. eexists. reflexivity.
Defined.

(** ** Store: pools *)

Lemma in_listPools_AddMember (m : gmap string strmap) (env pool : string) :
  pool ∈ listPools (snd (AddMember_maps m (pools_key env) pool)) env.
Proof.
  apply in_listPools. unfold AddMember_maps. simpl.
  rewrite get_set_insert_eq, lookup_insert_eq. by eexists.
Qed.

(** C7: a second [createPool] with the same arguments answers [false]
    without error and leaves the backend, the pool's member set included,
    as the first call left it. *)
Theorem createPool_idempotent (m : gmap string strmap) (pool env : string) :
  createPool (snd (createPool m pool env)) pool env = ((false, None), snd (createPool m pool env)).
Proof.
  unfold createPool at 2 3.
  destruct (bool_decide (pool ∈ listPools m env) || negb (bool_decide (listAssignments m env pool = [])))
    eqn:Hc; simpl.
  - unfold createPool. by rewrite Hc.
  - unfold createPool. rewrite bool_decide_eq_true_2; [done|]. apply in_listPools_AddMember.
Qed.

(** Unassigning the current members of a pool empties it. *)
Lemma get_set_unassign (m : gmap string strmap) (app env pool : string) :
  snd (unassign m app env pool) = snd (RemoveMember_maps m (pool_key env pool) app).
Proof. unfold unassign. by destruct (RemoveMember_maps m (pool_key env pool) app). Qed.

Lemma unassign_all_gone (env pool : string) (apps : list string) (m : gmap string strmap) (a : string) :
  a ∈ apps \/ get_set m (pool_key env pool) !! a = None ->
  get_set (unassign_all m env pool apps) (pool_key env pool) !! a = None.
Proof.
  unfold unassign_all. revert m.
  induction apps as [|b bs IH]; intros m Ha; simpl.
  - destruct Ha as [Ha|Ha]; [set_solver | done].
  - apply IH. rewrite get_set_unassign, get_set_RemoveMember, decide_True by done.
    destruct (decide (b = a)) as [->|Hne]; [right; by rewrite lookup_delete_eq|].
    rewrite lookup_delete_ne by done.
    destruct Ha as [Ha|Ha]; [|by right].
    apply elem_of_cons in Ha as [->|Ha]; [done | by left].
Qed.

Lemma unassign_all_members_empty (m : gmap string strmap) (env pool : string) :
  listAssignments (unassign_all m env pool (listAssignments m env pool)) env pool = [].
Proof.
  apply listAssignments_nil, map_empty. intros a. apply unassign_all_gone.
  destruct (get_set m (pool_key env pool) !! a) eqn:Ha; [left | by right].
  apply in_listAssignments. rewrite Ha. by eexists.
Qed.

(** C5: [deletePool] on a pool with an assigned app answers [false] without
    error and changes nothing (the member set included); once every
    assigned app is unassigned, [deletePool] answers [true] without error
    and the pool is no longer listed by [listPools]. *)
Theorem deletePool_requires_empty (m : gmap string strmap) (pool env : string) :
  (listAssignments m env pool <> [] -> deletePool m pool env = ((false, None), m)) /\
  (let m1 := unassign_all m env pool (listAssignments m env pool) in
   fst (deletePool m1 pool env) = (true, None) /\
   pool ∉ listPools (snd (deletePool m1 pool env)) env).
Proof.
  split.
  - intros Hne. unfold deletePool. by rewrite bool_decide_eq_false_2.
  - cbv zeta. unfold deletePool.
    rewrite bool_decide_eq_true_2 by apply unassign_all_members_empty.
    simpl. split; [done|].
    rewrite in_listPools, get_set_RemoveMember, decide_True by done.
    rewrite lookup_delete_eq. by intros [? ?].
Qed.

Lemma deletePool_requires_empty_witness :
  let m := snd (assign (snd (createApp ∅ "foo" "prod")) "foo" "prod" "web") in
  listAssignments m "prod" "web" <> [] /\ deletePool m "web" "prod" = ((false, None), m).
Proof.
  cbv zeta.
  assert (H : listAssignments (snd (assign (snd (createApp ∅ "foo" "prod")) "foo" "prod" "web"))
                "prod" "web" <> []) by (vm_compute; discriminate).
  split; [exact H|]. exact (proj1 (deletePool_requires_empty _ "web" "prod") H).
Defined.

(** ** Registry lookup and status *)

(** C8: [GetServiceRegistration] answers [nil, nil] for a container that was
    never registered or whose time to live has lapsed, and [status]
    renders such a container as a row without registry metadata (empty
    external, internal and expiry columns) and goes on with the next
    container, where a lookup error would end the command instead. *)
Theorem unregistered_is_untracked (st : registry) (env pool : string) (c : Container)
  (cs : list Container) (now : Z) (HumanDuration : Z -> string) :
  (st !! reg_key env pool (ID_ c) = None \/
   exists r exp, st !! reg_key env pool (ID_ c) = Some (r, exp) /\ (exp <= now)%Z) ->
  12 <= String.length (ID_ c) ->
  GetServiceRegistration st env pool (ID_ c) now = (None, None) /\
  status_rows now HumanDuration (fun c' => GetServiceRegistration st env pool (ID_ c') now) (c :: cs)
  = cons_row [substring 0 12 (ID_ c); Image_ c; ""; ""; HumanDuration (now - Created c)%Z ++ " ago"; ""]
      (status_rows now HumanDuration (fun c' => GetServiceRegistration st env pool (ID_ c') now) cs).
Proof.
  intros Hgone Hlen.
  assert (Hnil : GetServiceRegistration st env pool (ID_ c) now = (None, None)).
  { unfold GetServiceRegistration.
    destruct Hgone as [-> | (r & exp & -> & Hexp)]; [done|].
    destruct (Z.ltb_spec now exp); [lia | done]. }
  split; [exact Hnil|].
  simpl. rewrite Hnil. unfold untracked_row, slice12.
  destruct (Nat.ltb_spec (String.length (ID_ c)) 12); [lia | done].
Qed.

Lemma unregistered_is_untracked_witness :
  let r := {| ContainerID := "abc123abc123abc123"; RegImage := "web:1";
              ExternalAddr := "10.0.0.1:8080"; InternalAddr := "10.0.0.1:49153";
              StartedAt := 0; Expires := 5 |} in
  let st := register ∅ "prod" "web" r 5 0 in
  let c := {| ID_ := "abc123abc123abc123"; Image_ := "web:1"; Created := 0; EnvFor := ∅ |} in
  GetServiceRegistration st "prod" "web" (ID_ c) 1 = (Some r, None) /\
  GetServiceRegistration st "prod" "web" (ID_ c) 5 = (None, None).
Proof.
  cbv zeta. split; [vm_compute; reflexivity|].
  refine (proj1 (unregistered_is_untracked _ "prod" "web" _ [] 5 (fun _ => "") _ _)).
  - right. eexists _, 5%Z. split; [vm_compute; reflexivity | lia].
  - simpl. lia.
Defined.

(** ** Keys *)

Lemma replace_star_head (p : string) (d : ascii) (s : string) :
  replace_star p = String d s -> d <> "*"%char.
Proof.
  destruct p as [|c p]; simpl; [discriminate|].
  destruct (Ascii.eqb c "*") eqn:Hc; intros H; injection H as <- _.
  - discriminate.
  - intros ->. discriminate.
Qed.

Lemma compile_replace_star (p : string) :
  plain_pattern p = true -> compile (replace_star p) = Some (glob_pieces p).
Proof.
  induction p as [|c p IH]; simpl; [done|].
  intros Hp. apply andb_prop in Hp as [Hc Hp].
  destruct (Ascii.eqb c "*") eqn:Hstar.
  - simpl. by rewrite IH.
  - simpl. rewrite Hstar. simpl in Hc.
    destruct (atom_of c) as [a|] eqn:Ha; [|discriminate]. simpl.
    destruct (replace_star p) as [|d s] eqn:Hr.
    + destruct p as [|c' p']; [done|]. simpl in Hr.
      destruct (Ascii.eqb c' "*"); discriminate.
    + apply replace_star_head in Hr as Hd.
      destruct (Ascii.eqb d "*") eqn:Hdstar; [apply Ascii.eqb_eq in Hdstar; done|].
      rewrite IH by done. reflexivity.
Qed.

Lemma glob_star_eq (p : string) (s : string) :
  glob (String "*" p) s =
  glob p s || match s with EmptyString => false | String _ s' => glob (String "*" p) s' end.
Proof. destruct s; reflexivity. Qed.

Lemma match_prefix_star_eq (a : atom) (re : list piece) (s : string) :
  match_prefix ((a, true) :: re) s =
  match_prefix re s ||
  match s with EmptyString => false | String c s' => atom_ok a c && match_prefix ((a, true) :: re) s' end.
Proof. destruct s; reflexivity. Qed.

(** A glob match of the whole key is a match of a prefix of it by the
    compiled expression, on a key without newline. *)
Lemma glob_match_prefix (p : string) :
  forall s, plain_pattern p = true -> no_newline s = true -> glob p s = true ->
  match_prefix (glob_pieces p) s = true.
Proof.
  induction p as [|c p IH]; intros s Hp Hs Hg; [done|].
  simpl in Hp. apply andb_prop in Hp as [Hc Hp].
  destruct (Ascii.eqb c "*") eqn:Hstar.
  - apply Ascii.eqb_eq in Hstar. subst c. simpl glob_pieces.
    induction s as [|d s IHs].
    + rewrite glob_star_eq in Hg. rewrite match_prefix_star_eq.
      rewrite orb_false_r in *. by apply IH.
    + rewrite glob_star_eq in Hg. rewrite match_prefix_star_eq.
      simpl in Hs. apply andb_prop in Hs as [Hd Hs].
      apply orb_true_iff in Hg as [Hg|Hg].
      * apply orb_true_iff. left. apply IH; [done | simpl; by rewrite Hd | done].
      * apply orb_true_iff. right. simpl. rewrite Hd. simpl. by apply IHs.
  - simpl glob_pieces. rewrite Hstar. simpl glob in Hg. rewrite Hstar in Hg.
    destruct s as [|d s]; [discriminate|].
    apply andb_prop in Hg as [Hcd Hg]. apply Ascii.eqb_eq in Hcd. subst d.
    simpl in Hs. apply andb_prop in Hs as [Hd Hs].
    simpl. apply andb_true_iff. split; [|by apply IH].
    simpl in Hc. destruct (atom_of c) as [a|] eqn:Ha; [|discriminate]. simpl.
    unfold atom_of in Ha.
    destruct (Ascii.eqb c ".") eqn:Hdot.
    + injection Ha as <-. simpl. done.
    + destruct (existsb (Ascii.eqb c) re_meta); [discriminate|].
      destruct (Nat.leb 128 (nat_of_ascii c)); [discriminate|].
      injection Ha as <-. simpl. apply Ascii.eqb_refl.
Qed.

Lemma match_prefix_MatchString (re : list piece) (s : string) :
  match_prefix re s = true -> MatchString re s = true.
Proof. intros H. destruct s; simpl; by rewrite H. Qed.

Definition scenario_maps : gmap string strmap :=
  snd (createApp (snd (createApp (snd (createApp ∅ "foo" "prod")) "bar" "prod")) "baz" "staging").

(** C2 (amended): with no [KeysFunc] override and a pattern of ASCII
    characters none of which is a metacharacter of Go's regular
    expressions other than [*] and [.], [Keys(pattern)] answers without
    error a list holding every stored key that has no newline and matches
    the pattern as a glob ([*] matching any sequence). In the spec's
    scenario (apps foo and bar created in prod, baz in staging), the keys
    [Keys("app:prod:*")] returns are exactly those of foo and bar. *)
Theorem Keys_glob_complete (r : MemoryBackend) (pattern k : string) :
  (KeysFunc r = None -> plain_pattern pattern = true ->
   is_Some (maps r !! k) -> no_newline k = true -> glob pattern k = true ->
   exists ks, Keys r pattern = Some (ks, None) /\ k ∈ ks) /\
  (exists ks, Keys (with_maps NewMemoryBackend scenario_maps) "app:prod:*" = Some (ks, None) /\
   ks ≡ₚ [app_key "prod" "foo"; app_key "prod" "bar"]).
Proof.
  split.
  - intros HK Hp Hk Hnl Hg. unfold Keys. rewrite HK, compile_replace_star by done.
    eexists. split; [reflexivity|].
    apply list_elem_of_In, filter_In. split.
    + apply list_elem_of_In, elem_of_keys. done.
    + by apply match_prefix_MatchString, glob_match_prefix.
  - eexists. split; [vm_compute; reflexivity|]. reflexivity.
Qed.

Lemma Keys_glob_complete_witness :
  let r := with_maps NewMemoryBackend scenario_maps in
  exists ks, Keys r "app:*:foo" = Some (ks, None) /\ app_key "prod" "foo" ∈ ks.
Proof.
  cbv zeta.
  apply (proj1 (Keys_glob_complete (with_maps NewMemoryBackend scenario_maps) "app:*:foo"
                  (app_key "prod" "foo"))).
  - reflexivity.
  - reflexivity.
  - vm_compute. eexists. reflexivity.
  - reflexivity.
  - reflexivity.
Defined.

(** C2 as stated fails. The expression is matched anywhere in the key, not
    against the whole key: with apps foo and foobar in prod,
    [Keys("app:prod:foo")] also returns foobar's key, which the glob does
    not match. And with a [KeysFunc] override the answer is the
    override's, here no key at all. *)
Lemma Keys_glob_counterexample :
  (exists ks, Keys (with_maps NewMemoryBackend
                      (snd (createApp (snd (createApp ∅ "foo" "prod")) "foobar" "prod")))
                 "app:prod:foo" = Some (ks, None) /\
              app_key "prod" "foobar" ∈ ks /\ glob "app:prod:foo" (app_key "prod" "foobar") = false) /\
  Keys {| maps := scenario_maps; MembersFunc := None; KeysFunc := Some (fun _ => ([], None));
          AddMemberFunc := None; RemoveMemberFunc := None; NotifyFunc := None;
          SetMultiFunc := None |} "app:prod:*" = Some ([], None).
Proof.
  split; [|reflexivity].
  eexists. split; [vm_compute; reflexivity|]. split; [|reflexivity].
  vm_compute. apply list_elem_of_here.
Qed.

(** * Further properties of the source *)

(** ** In-memory backend *)

Lemma map_fst_fmap {A} (l : list (string * A)) : map fst l = l.*1.
Proof. induction l as [|[k v] l IH]; simpl; [done|]. by rewrite IH. Qed.

Lemma NoDup_keys {A} (s : gmap string A) : NoDup (map fst (map_to_list s)).
Proof. rewrite map_fst_fmap. apply NoDup_fst_map_to_list. Qed.

(** With no override, [AddMember(key, value)] makes [value] listed by
    [Members(key)], next to the members already there; [Members] lists
    each member once. *)
Theorem AddMember_Members (r : MemoryBackend) (key value : string) :
  AddMemberFunc r = None -> MembersFunc r = None ->
  exists l, Members (snd (AddMember r key value)) key = (l, None) /\ NoDup l /\
    (forall x, x ∈ l <-> x = value \/ x ∈ member_set r key).
Proof.
  intros HA HM. unfold AddMember, AddMember_maps, Members. rewrite HA. simpl. rewrite HM.
  eexists. split; [reflexivity|]. split; [apply NoDup_keys|].
  intros x. rewrite elem_of_keys, get_set_insert_eq. unfold member_set.
  rewrite elem_of_dom, lookup_insert_is_Some. split.
  - intros [->|[_ H]]; auto.
  - intros [->|H]; [by left|]. destruct (decide (value = x)); [by left | by right].
Qed.

Lemma AddMember_Members_witness :
  exists l, Members (snd (AddMember NewMemoryBackend "pools:prod" "web")) "pools:prod" = (l, None) /\
    NoDup l /\ (forall x, x ∈ l <-> x = "web" \/ x ∈ member_set NewMemoryBackend "pools:prod").
Proof. exact (AddMember_Members NewMemoryBackend "pools:prod" "web" eq_refl eq_refl). Defined.

(** With no override, [RemoveMember] right after [AddMember] of the same
    value answers 1 and leaves the member set as it was without that
    value; the key itself stays stored, with an empty set if it had no
    members before. *)
Theorem AddMember_RemoveMember (r : MemoryBackend) (key value : string) :
  AddMemberFunc r = None -> RemoveMemberFunc r = None ->
  fst (RemoveMember (snd (AddMember r key value)) key value) = (1%Z, None) /\
  maps (snd (RemoveMember (snd (AddMember r key value)) key value)) !! key
    = Some (delete value (get_set (maps r) key)) /\
  member_set (snd (RemoveMember (snd (AddMember r key value)) key value)) key
    = member_set r key ∖ {[ value ]}.
Proof.
  intros HA HR. unfold AddMember, AddMember_maps. rewrite HA. cbn [snd].
  unfold RemoveMember. cbn [RemoveMemberFunc with_maps]. rewrite HR.
  unfold RemoveMember_maps. cbn [maps with_maps].
  rewrite lookup_insert_eq, lookup_insert_eq. cbn [fst snd maps with_maps].
  rewrite delete_insert_eq. split; [done|]. split.
  - by rewrite lookup_insert_eq.
  - unfold member_set, get_set. cbn [maps with_maps]. rewrite lookup_insert_eq.
    cbn [default]. unfold id. by rewrite dom_delete_L.
Qed.

Lemma AddMember_RemoveMember_witness :
  fst (RemoveMember (snd (AddMember NewMemoryBackend "pools:prod" "web")) "pools:prod" "web")
    = (1%Z, None).
Proof. exact (proj1 (AddMember_RemoveMember NewMemoryBackend "pools:prod" "web" eq_refl eq_refl)). Defined.

(** With no override, [RemoveMember] never removes a key: the stored
    keys are the same before and after, even when the last member of a
    set goes. *)
Theorem RemoveMember_keeps_keys (r : MemoryBackend) (key value : string) :
  RemoveMemberFunc r = None ->
  dom (maps (snd (RemoveMember r key value))) = dom (maps r).
Proof.
  intros HR. unfold RemoveMember. rewrite HR.
  unfold RemoveMember_maps. destruct (maps r !! key) as [set|] eqn:Hk; [|done].
  destruct (set !! value); [|done]. cbn [snd maps with_maps].
  apply dom_insert_lookup_L. by rewrite Hk.
Qed.

Lemma RemoveMember_keeps_keys_witness :
  dom (maps (snd (RemoveMember sample_backend "pool:prod:web" "a")))
    = dom (maps sample_backend) /\
  maps (snd (RemoveMember sample_backend "pool:prod:web" "a")) !! "pool:prod:web" = Some ∅.
Proof.
  split.
  - exact (RemoveMember_keeps_keys sample_backend "pool:prod:web" "a" eq_refl).
  - vm_compute. reflexivity.
Defined.

(** [Delete] answers 1 when the key was stored and 0 otherwise, and
    removes the key and nothing else; a second [Delete] of the same key
    answers 0 and changes nothing. *)
Theorem Delete_spec (r : MemoryBackend) (key : string) :
  fst (Delete r key) = ((if decide (is_Some (maps r !! key)) then 1 else 0)%Z, None) /\
  maps (snd (Delete r key)) = delete key (maps r) /\
  fst (Delete (snd (Delete r key)) key) = (0%Z, None) /\
  snd (Delete (snd (Delete r key)) key) = snd (Delete r key).
Proof.
  unfold Delete, Delete_maps.
  destruct (maps r !! key) as [s|] eqn:Hk; cbn [fst snd maps with_maps].
  - rewrite decide_True by done. rewrite lookup_delete_eq. cbn.
    repeat split; by destruct r.
  - rewrite decide_False by (intros [? ?]; discriminate). rewrite Hk. cbn.
    rewrite delete_id by done. repeat split; by destruct r.
Qed.

Lemma NoDup_List_filter {A} (f : A -> bool) (l : list A) :
  NoDup l -> NoDup (List.filter f l).
Proof.
  induction l as [|x l IH]; intros Hl; simpl; [constructor|].
  apply NoDup_cons in Hl as [Hx Hl].
  destruct (f x); [|auto]. constructor; [|auto].
  rewrite list_elem_of_In, filter_In. intros [Hin _]. apply Hx. by apply list_elem_of_In.
Qed.

(** With no override and a pattern made of [*], [.] and ASCII
    characters that are not metacharacters of Go's regular expressions,
    [Keys] returns without error a list of stored keys, each at most
    once. *)
Theorem Keys_sound (r : MemoryBackend) (pattern : string) :
  KeysFunc r = None -> plain_pattern pattern = true ->
  exists ks, Keys r pattern = Some (ks, None) /\ NoDup ks /\
    (forall k, k ∈ ks -> is_Some (maps r !! k)).
Proof.
  intros HK Hp. unfold Keys. rewrite HK, compile_replace_star by done.
  eexists. split; [reflexivity|]. split.
  - apply NoDup_List_filter, NoDup_keys.
  - intros k Hk. apply list_elem_of_In, filter_In in Hk as [Hk _].
    apply elem_of_keys, list_elem_of_In, Hk.
Qed.

Lemma Keys_sound_witness :
  exists ks, Keys sample_backend "pool*.w*" = Some (ks, None) /\ NoDup ks /\
    (forall k, k ∈ ks -> is_Some (maps sample_backend !! k)).
Proof. apply Keys_sound; reflexivity. Defined.

Lemma atom_of_Lit (c d : ascii) : atom_of c = Some (Lit d) -> d = c.
Proof.
  unfold atom_of. destruct (Ascii.eqb c "."); [discriminate|].
  destruct (existsb (Ascii.eqb c) re_meta); [discriminate|].
  destruct (Nat.leb 128 (nat_of_ascii c)); [discriminate|]. congruence.
Qed.

(** A literal pattern compiles to an expression that matches exactly the
    strings it begins. *)
Lemma literal_match_prefix (p : string) :
  literal_pattern p = true ->
  plain_pattern p = true /\
  forall s, match_prefix (glob_pieces p) s = true <-> exists b, s = p ++ b.
Proof.
  induction p as [|c p IH]; intros Hp.
  - split; [done|]. intros s. split; [intros _; by exists s | done].
  - simpl in Hp. apply andb_prop in Hp as [Hp Hrest]. apply andb_prop in Hp as [Hstar Hc].
    apply negb_true_iff in Hstar.
    destruct (atom_of c) as [[|d]|] eqn:Ha; try discriminate.
    apply atom_of_Lit in Ha as Hd. subst d.
    destruct (IH Hrest) as [Hplain Hm]. split.
    + simpl. by rewrite Ha, Hplain, orb_true_r.
    + intros s. simpl glob_pieces. rewrite Hstar, Ha. simpl default.
      destruct s as [|d s]; simpl.
      * split; [discriminate|]. intros [b Hb]. discriminate.
      * rewrite andb_true_iff, Hm. split.
        -- intros [Hcd [b ->]]. apply Ascii.eqb_eq in Hcd. subst d. by exists b.
        -- intros [b Hb]. injection Hb as -> ->. split; [apply Ascii.eqb_refl|]. by exists b.
Qed.

(** [MatchString]: a match of some suffix's prefix. *)
Lemma MatchString_iff (re : list piece) (s : string) :
  MatchString re s = true <-> exists a t, s = a ++ t /\ match_prefix re t = true.
Proof.
  induction s as [|c s IH]; simpl.
  - rewrite orb_false_r. split.
    + intros H. by exists "", "".
    + intros [a [t [Hat Ht]]]. destruct a as [|d a]; [|discriminate]. change ("" = t) in Hat. by subst t.
  - rewrite orb_true_iff, IH. split.
    + intros [H | [a [t [-> Ht]]]].
      * by exists "", (String c s).
      * by exists (String c a), t.
    + intros [a [t [Hat Ht]]]. destruct a as [|d a].
      * change (String c s = t) in Hat. subst t. by left.
      * change (String c s = String d (a ++ t)) in Hat.
        injection Hat as -> ->. right. by exists a, t.
Qed.

(** With no override, [Keys] of a pattern without [*], [.] or another
    metacharacter answers without error the stored keys that contain the
    pattern anywhere (not only those equal to it), each once. *)
Theorem Keys_literal_substring (r : MemoryBackend) (pattern : string) :
  KeysFunc r = None -> literal_pattern pattern = true ->
  exists ks, Keys r pattern = Some (ks, None) /\ NoDup ks /\
    forall k, k ∈ ks <-> is_Some (maps r !! k) /\ exists a b, k = a ++ pattern ++ b.
Proof.
  intros HK Hp. destruct (literal_match_prefix pattern Hp) as [Hplain Hm].
  unfold Keys. rewrite HK, compile_replace_star by done.
  eexists. split; [reflexivity|]. split; [apply NoDup_List_filter, NoDup_keys|].
  intros k. rewrite list_elem_of_In, filter_In, <- list_elem_of_In, elem_of_keys, MatchString_iff.
  split.
  - intros [Hk [a [t [-> Ht]]]]. split; [done|]. apply Hm in Ht as [b ->]. by exists a, b.
  - intros [Hk [a [b ->]]]. split; [done|]. exists a, (pattern ++ b). split; [done|].
    apply Hm. by exists b.
Qed.

Lemma Keys_literal_substring_witness :
  exists ks, Keys (with_maps NewMemoryBackend scenario_maps) "foo" = Some (ks, None) /\ NoDup ks /\
    forall k, k ∈ ks <-> is_Some (scenario_maps !! k) /\ exists a b, k = a ++ "foo" ++ b.
Proof. exact (Keys_literal_substring (with_maps NewMemoryBackend scenario_maps) "foo" eq_refl eq_refl). Defined.

(** ** The status command *)

Lemma substring_prefix (n : nat) (s : string) :
  n <= String.length s ->
  String.length (substring 0 n s) = n /\ exists rest, s = substring 0 n s ++ rest.
Proof.
  revert s. induction n as [|n IH]; intros s Hn.
  - destruct s; split; [done | by eexists | done | by eexists].
  - destruct s as [|c s]; simpl in Hn; [lia|].
    destruct (IH s ltac:(lia)) as [Hl [rest Hr]]. simpl. split; [lia|].
    exists rest. change (String c s = String c (substring 0 n s ++ rest)). by rewrite <- Hr.
Qed.

Lemma slice12_Some (s id : string) :
  slice12 s = Some id -> String.length id = 12 /\ exists rest, s = id ++ rest.
Proof.
  unfold slice12. destruct (Nat.ltb (String.length s) 12) eqn:Hl; [discriminate|].
  intros H. injection H as <-. apply Nat.ltb_ge in Hl. by apply substring_prefix.
Qed.

Lemma slice12_None (s : string) : String.length s < 12 -> slice12 s = None.
Proof. intros H. unfold slice12. apply Nat.ltb_lt in H. by rewrite H. Qed.

Section StatusProperties.
Variable now : Z.
Variable HumanDuration : Z -> string.
Variable lookup : Container -> option ServiceRegistration * option error.

Lemma cons_row_Done (row : list string) (o : Outcome (list (list string))) (rows : list (list string)) :
  cons_row row o = Done rows -> exists rows', o = Done rows' /\ rows = row :: rows'.
Proof. destruct o; simpl; [|discriminate|discriminate]. intros H. injection H as <-. by eexists. Qed.

Lemma status_rows_shape (cs : list Container) (rows : list (list string)) :
  status_rows now HumanDuration lookup cs = Done rows ->
  length rows = length cs /\ Forall table_row rows.
Proof.
  revert rows. induction cs as [|c cs IH]; intros rows H; simpl in H.
  - injection H as <-. split; [done | constructor].
  - destruct (lookup c) as [[r|] [[e]|]]; try discriminate.
    + unfold registered_row in H. destruct (slice12 (ContainerID r)) as [id|] eqn:Hid; [|discriminate].
      apply cons_row_Done in H as [rows' [Hrows ->]]. destruct (IH rows' Hrows) as [Hl Hf].
      split; [simpl; lia|]. constructor; [|done].
      apply slice12_Some in Hid as [Hid _]. by do 2 eexists.
    + unfold untracked_row in H. destruct (slice12 (ID_ c)) as [id|] eqn:Hid; [|discriminate].
      apply cons_row_Done in H as [rows' [Hrows ->]]. destruct (IH rows' Hrows) as [Hl Hf].
      split; [simpl; lia|]. constructor; [|done].
      apply slice12_Some in Hid as [Hid _]. by do 2 eexists.
Qed.

Lemma status_rows_app (pre rest : list Container) (body : list (list string)) :
  status_rows now HumanDuration lookup pre = Done body ->
  status_rows now HumanDuration lookup (pre ++ rest) =
  match status_rows now HumanDuration lookup rest with
  | Done rows => Done (body ++ rows)%list
  | Failed msg => Failed msg
  | Panicked => Panicked
  end.
Proof.
  revert body. induction pre as [|c pre IH]; intros body H; simpl in H |- *.
  - injection H as <-. by destruct (status_rows now HumanDuration lookup rest).
  - destruct (lookup c) as [[r|] [[e]|]]; try discriminate.
    + destruct (registered_row now HumanDuration r) as [row|]; [|discriminate].
      apply cons_row_Done in H as [rows' [Hrows ->]]. rewrite (IH rows' Hrows).
      by destruct (status_rows now HumanDuration lookup rest).
    + destruct (untracked_row now HumanDuration c) as [row|]; [|discriminate].
      apply cons_row_Done in H as [rows' [Hrows ->]]. rewrite (IH rows' Hrows).
      by destruct (status_rows now HumanDuration lookup rest).
Qed.

(** When [status] prints its table, the table has the header line and
    then one line per managed container, each of six columns whose first
    column is twelve characters long. *)
Theorem status_table_shape (cs : list Container) (rows : list (list string)) :
  status now HumanDuration lookup (cs, None) = Done rows ->
  exists body, rows = status_header :: body /\ length body = length cs /\ Forall table_row body.
Proof.
  unfold status. destruct (status_rows now HumanDuration lookup cs) as [body| |] eqn:H;
    try discriminate.
  intros Hd. injection Hd as <-. exists body. split; [done|]. by apply status_rows_shape.
Qed.

(** A failed registry lookup for a container stops [status] with the
    error line naming the container's [GALAXY_APP]; the table is not
    printed, a registration returned with the error is ignored, and the
    containers after it are not looked at. *)
Theorem status_lookup_error (pre : list Container) (c : Container) (cs : list Container)
  (body : list (list string)) (reg : option ServiceRegistration) (e : string) :
  status_rows now HumanDuration lookup pre = Done body ->
  lookup c = (reg, Some (Error e)) ->
  status now HumanDuration lookup ((pre ++ c :: cs)%list, None) =
  Failed ("ERROR: Unable to determine status of " ++ default "" (EnvFor c !! "GALAXY_APP") ++ ": " ++ e).
Proof.
  intros Hpre Hc. unfold status. rewrite (status_rows_app pre (c :: cs) body Hpre).
  simpl. rewrite Hc. by destruct reg.
Qed.

(** A container whose ID (or, when registered, whose registration's
    container ID) is shorter than twelve characters makes [status] panic
    on the slice [ID[0:12]], once the containers before it were printed. *)
Theorem status_short_id_panics (pre : list Container) (c : Container) (cs : list Container)
  (body : list (list string)) :
  status_rows now HumanDuration lookup pre = Done body ->
  (lookup c = (None, None) /\ String.length (ID_ c) < 12 \/
   exists r, lookup c = (Some r, None) /\ String.length (ContainerID r) < 12) ->
  status now HumanDuration lookup ((pre ++ c :: cs)%list, None) = Panicked.
Proof.
  intros Hpre Hc. unfold status. rewrite (status_rows_app pre (c :: cs) body Hpre).
  simpl. destruct Hc as [[Hl Hid] | [r [Hl Hid]]]; rewrite Hl.
  - unfold untracked_row. by rewrite slice12_None.
  - unfold registered_row. by rewrite slice12_None.
Qed.

End StatusProperties.

Lemma status_table_shape_witness :
  exists body, [status_header; ["0123456789ab"; "img"; ""; ""; "1m ago"; ""]] = status_header :: body /\
  length body = 1 /\ Forall table_row body.
Proof.
  apply (status_table_shape 100 (fun _ => "1m") (fun _ => (None, None))
           [demo_container "0123456789abcdef" "web"]).
  vm_compute. reflexivity.
Defined.

Lemma status_lookup_error_witness :
  status 100 (fun _ => "1m")
    (fun c => if String.eqb (ID_ c) "bbbbbbbbbbbbbbbb" then (None, Some (Error "timeout")) else (None, None))
    ([demo_container "aaaaaaaaaaaaaaaa" "web"; demo_container "bbbbbbbbbbbbbbbb" "api";
      demo_container "cc" "db"], None)
  = Failed "ERROR: Unable to determine status of api: timeout".
Proof.
  apply (status_lookup_error 100 (fun _ => "1m")
    (fun c => if String.eqb (ID_ c) "bbbbbbbbbbbbbbbb" then (None, Some (Error "timeout")) else (None, None))
    [demo_container "aaaaaaaaaaaaaaaa" "web"] (demo_container "bbbbbbbbbbbbbbbb" "api")
    [demo_container "cc" "db"] [["aaaaaaaaaaaa"; "img"; ""; ""; "1m ago"; ""]] None "timeout");
    vm_compute; reflexivity.
Defined.

Lemma status_short_id_panics_witness :
  status 100 (fun _ => "1m") (fun _ => (None, None))
    ([demo_container "aaaaaaaaaaaaaaaa" "web"; demo_container "abc" "api"], None) = Panicked.
Proof.
  apply (status_short_id_panics 100 (fun _ => "1m") (fun _ => (None, None))
    [demo_container "aaaaaaaaaaaaaaaa" "web"] (demo_container "abc" "api") []
    [["aaaaaaaaaaaa"; "img"; ""; ""; "1m ago"; ""]]).
  - vm_compute. reflexivity.
  - left. split; [reflexivity | simpl; lia].
Defined.

(** ** The command-line commands *)

Lemma eqb_nonempty (s : string) : s <> "" -> String.eqb s "" = false.
Proof. apply String.eqb_neq. Qed.

Section CliProperties.
Variable AppExists : string -> string -> bool * option error.

(** [app:deploy] calls the deployment exactly when the environment is
    set and the arguments are an existing app's name and a non-empty
    version, nothing more. *)
Theorem appDeploy_calls_deploy (env : string) (args : list string) (c : Call) :
  appDeploy AppExists env args = Ok (Some c) <->
  exists app version, c = CallAppDeploy app env version /\ env <> "" /\
    args = [app; version] /\ app <> "" /\ version <> "" /\ AppExists app env = (true, None).
Proof.
  unfold appDeploy, cli_bind, ensureEnvArg, ensureAppParam.
  destruct (String.eqb_spec env "") as [->|Henv].
  { split; [discriminate|]. intros (app & v & _ & H & _). done. }
  destruct (String.eqb_spec (First args) "") as [Ha|Ha].
  { split; [discriminate|]. intros (app & v & _ & _ & -> & Happ & _). done. }
  destruct (AppExists (First args) env) as [[|] [[e]|]] eqn:Hex.
  1, 3, 4: split; [discriminate|]; intros (app & v & _ & _ & -> & _ & _ & Hx); simpl in Hex; congruence.
  destruct args as [|a [|v [|w rest]]]; simpl in *.
  - done.
  - split; [discriminate|]. intros (app & v & _ & _ & H & _). discriminate.
  - destruct (String.eqb_spec v "") as [->|Hv].
    + split; [discriminate|]. intros (app & v' & _ & _ & H & _ & Hv' & _). congruence.
    + split.
      * intros H. injection H as <-. by exists a, v.
      * intros (app & v' & -> & _ & H & _). by injection H as -> ->.
  - split; [discriminate|]. intros (app & v' & _ & _ & H & _). discriminate.
Qed.

(** [app:deploy] with an existing app and no version, or more than one
    argument after the app's name, logs the missing version and returns:
    it neither deploys nor exits. *)
Theorem appDeploy_without_single_version (env app : string) (rest : list string) :
  env <> "" -> app <> "" -> AppExists app env = (true, None) -> length rest <> 1 ->
  appDeploy AppExists env (app :: rest) = Ok None.
Proof.
  intros Henv Happ Hex Hl. unfold appDeploy, cli_bind, ensureEnvArg, ensureAppParam. simpl.
  rewrite eqb_nonempty, eqb_nonempty, Hex by done.
  destruct rest as [|v [|w rest]]; simpl in *; [done | lia | done].
Qed.

(** The commands that check the app ([app:delete], [app:deploy],
    [app:restart], [app:run], [app:shell], [config], [config:set],
    [config:unset], [config:get], [pool:assign]) exit with "does not exist"
    for an app the store does not have, while [pool:unassign] and
    [app:create] go on to the commander without checking. *)
Theorem missing_app_fatal (env pool app : string) (args : list string) :
  env <> "" -> pool <> "" -> app <> "" -> AppExists app env = (false, None) ->
  appDelete AppExists env (app :: args) = Fatal ("ERROR: " ++ app ++ " does not exist. Create it first.") /\
  appDeploy AppExists env (app :: args) = Fatal ("ERROR: " ++ app ++ " does not exist. Create it first.") /\
  appRestart AppExists env (app :: args) = Fatal ("ERROR: " ++ app ++ " does not exist. Create it first.") /\
  appRun AppExists env (app :: args) = Fatal ("ERROR: " ++ app ++ " does not exist. Create it first.") /\
  appShell AppExists env pool (app :: args) = Fatal ("ERROR: " ++ app ++ " does not exist. Create it first.") /\
  configList AppExists env (app :: args) = Fatal ("ERROR: " ++ app ++ " does not exist. Create it first.") /\
  configSet AppExists env (app :: args) = Fatal ("ERROR: " ++ app ++ " does not exist. Create it first.") /\
  configUnset AppExists env (app :: args) = Fatal ("ERROR: " ++ app ++ " does not exist. Create it first.") /\
  configGet AppExists env (app :: args) = Fatal ("ERROR: " ++ app ++ " does not exist. Create it first.") /\
  poolAssign AppExists env pool (app :: args) = Fatal ("ERROR: " ++ app ++ " does not exist. Create it first.") /\
  poolUnassign env pool (app :: args) = Ok (CallAppUnassign app env pool) /\
  appCreate env (app :: args) = Ok (CallAppCreate app env).
Proof.
  intros Henv Hpool Happ Hex.
  unfold appDelete, appDeploy, appRestart, appRun, appShell, configList, configSet, configUnset,
    configGet, poolAssign, poolUnassign, appCreate,
    cli_bind, ensureEnvArg, ensurePoolArg, ensureAppParam. simpl.
  rewrite (eqb_nonempty env Henv), (eqb_nonempty pool Hpool), (eqb_nonempty app Happ), Hex. done.
Qed.



(** [app:restart] alone does not require the environment: with none set
    it restarts an app that exists in the empty environment, where the
    other app commands exit with "env is required" whatever the store
    answers. *)
Theorem appRestart_no_env_check (app : string) (args : list string) :
  app <> "" -> AppExists app "" = (true, None) ->
  appRestart AppExists "" (app :: args) = Ok (CallAppRestart app "") /\
  forall (AppExists' : string -> string -> bool * option error) (pool : string) (args' : list string),
  appDelete AppExists' "" args' = Fatal "ERROR: env is required.  Pass --env or set GALAXY_ENV" /\
  appDeploy AppExists' "" args' = Fatal "ERROR: env is required.  Pass --env or set GALAXY_ENV" /\
  appRun AppExists' "" args' = Fatal "ERROR: env is required.  Pass --env or set GALAXY_ENV" /\
  appShell AppExists' "" pool args' = Fatal "ERROR: env is required.  Pass --env or set GALAXY_ENV" /\
  configList AppExists' "" args' = Fatal "ERROR: env is required.  Pass --env or set GALAXY_ENV" /\
  configSet AppExists' "" args' = Fatal "ERROR: env is required.  Pass --env or set GALAXY_ENV" /\
  configUnset AppExists' "" args' = Fatal "ERROR: env is required.  Pass --env or set GALAXY_ENV" /\
  configGet AppExists' "" args' = Fatal "ERROR: env is required.  Pass --env or set GALAXY_ENV" /\
  poolAssign AppExists' "" pool args' = Fatal "ERROR: env is required.  Pass --env or set GALAXY_ENV" /\
  poolUnassign "" pool args' = Fatal "ERROR: env is required.  Pass --env or set GALAXY_ENV" /\
  appCreate "" args' = Fatal "ERROR: env is required.  Pass --env or set GALAXY_ENV".
Proof.
  intros Happ Hex. split.
  - unfold appRestart, cli_bind, ensureAppParam. simpl. by rewrite eqb_nonempty, Hex.
  - intros AE pool args'. done.
Qed.

(** [app:run] of an existing app runs the arguments after the app's name
    as the command, and exits when there are none. *)
Theorem appRun_command (env app : string) (cmd : list string) :
  env <> "" -> app <> "" -> AppExists app env = (true, None) ->
  appRun AppExists env (app :: cmd) =
  match cmd with
  | [] => Fatal "ERROR: Missing command to run."
  | _ :: _ => Ok (CallAppRun app env cmd)
  end.
Proof.
  intros Henv Happ Hex. unfold appRun, cli_bind, ensureEnvArg, ensureAppParam. simpl.
  rewrite (eqb_nonempty env Henv), (eqb_nonempty app Happ), Hex. by destruct cmd.
Qed.

(** [config:set], [config:unset] and [config:get] of an existing app hand
    on exactly the arguments after the app's name ([Tail] of a single
    argument is empty). *)
Theorem config_commands_args (env app : string) (rest : list string) :
  env <> "" -> app <> "" -> AppExists app env = (true, None) ->
  configSet AppExists env (app :: rest) = Ok (CallConfigSet app env rest) /\
  configUnset AppExists env (app :: rest) = Ok (CallConfigUnset app env rest) /\
  configGet AppExists env (app :: rest) = Ok (CallConfigGet app env rest).
Proof.
  intros Henv Happ Hex. unfold configSet, configUnset, configGet, cli_bind, ensureEnvArg, ensureAppParam.
  simpl. rewrite (eqb_nonempty env Henv), (eqb_nonempty app Happ), Hex.
  by destruct rest as [|x [|y rest]].
Qed.

End CliProperties.

Lemma appDeploy_without_single_version_witness :
  appDeploy demo_exists "prod" ["web"; "v1"; "extra"] = Ok None.
Proof. apply (appDeploy_without_single_version demo_exists "prod" "web" ["v1"; "extra"]);
  try discriminate; reflexivity. Defined.

Lemma missing_app_fatal_witness :
  poolAssign demo_exists "prod" "web-pool" ["api"] = Fatal "ERROR: api does not exist. Create it first." /\
  poolUnassign "prod" "web-pool" ["api"] = Ok (CallAppUnassign "api" "prod" "web-pool").
Proof.
  destruct (missing_app_fatal demo_exists "prod" "web-pool" "api" [])
    as (_ & _ & _ & _ & _ & _ & _ & _ & _ & H1 & H2 & _); try discriminate; [reflexivity|]. split; assumption.
Defined.



Lemma appRestart_no_env_check_witness :
  appRestart (fun app env => (String.eqb app "web", None)) "" ["web"] = Ok (CallAppRestart "web" "").
Proof.
  apply (appRestart_no_env_check (fun app env => (String.eqb app "web", None)) "web" []);
    [discriminate | reflexivity].
Defined.

Lemma appRun_command_witness :
  appRun demo_exists "prod" ["web"; "ls"; "-l"] = Ok (CallAppRun "web" "prod" ["ls"; "-l"]).
Proof. apply (appRun_command demo_exists "prod" "web" ["ls"; "-l"]); try discriminate; reflexivity. Defined.

(** ** pool:list *)

Section PoolListProperties.
Variable ListEnvs : list string * option error.
Variable ListPools : string -> list string * option error.
Variable ListAssignments : string -> string -> list string * option error.
Hypothesis pools_ok : forall e, snd (ListPools e) = None.
Hypothesis assignments_ok : forall e p, snd (ListAssignments e p) = None.

Lemma pool_rows_ok (env : string) (ps : list string) :
  pool_rows ListAssignments env ps =
  Ok (map (fun p => join " | " [env; p; join "," (fst (ListAssignments env p))]) ps).
Proof.
  induction ps as [|p ps IH]; simpl; [done|].
  specialize (assignments_ok env p).
  destruct (ListAssignments env p) as [a [[e]|]]; simpl in *; [discriminate|].
  by rewrite IH.
Qed.

Lemma env_rows_ok (envs : list string) :
  env_rows ListPools ListAssignments envs =
  Ok (concat (map (fun e =>
        match fst (ListPools e) with
        | [] => [join " | " [e; ""; ""]]
        | ps => map (fun p => join " | " [e; p; join "," (fst (ListAssignments e p))]) ps
        end) envs)).
Proof.
  induction envs as [|e es IH]; simpl; [done|].
  specialize (pools_ok e).
  destruct (ListPools e) as [[|p ps] [[err]|]]; simpl in pools_ok; try discriminate.
  - rewrite IH. reflexivity.
  - rewrite pool_rows_ok. cbn [cli_bind]. rewrite IH. reflexivity.
Qed.

(** When the store answers without error, [pool:list] prints the header
    and then, for each environment in order, one line
    [env | pool | apps] per pool in the order [ListPools] gives them, the
    apps joined with commas, or the single line [env |  | ] for an
    environment with no pool; the environments are the one given, or all
    of them when none is given, and the list of environments is not read
    when one is given (its failure then does not matter). *)
Theorem poolList_lines (env : string) :
  snd ListEnvs = None ->
  poolList ListEnvs ListPools ListAssignments env =
    Ok ("ENV | POOL | APPS " ::
        concat (map (fun e =>
          match fst (ListPools e) with
          | [] => [join " | " [e; ""; ""]]
          | ps => map (fun p => join " | " [e; p; join "," (fst (ListAssignments e p))]) ps
          end) (if String.eqb env "" then fst ListEnvs else [env]))) /\
  (env <> "" -> forall ListEnvs' : list string * option error,
     poolList ListEnvs' ListPools ListAssignments env = poolList ListEnvs ListPools ListAssignments env).
Proof.
  intros Henvs. unfold poolList, cli_bind.
  destruct (String.eqb_spec env "") as [->|Henv].
  - destruct ListEnvs as [envs [[e]|]]; simpl in *; [discriminate|].
    rewrite env_rows_ok. split; [done|]. by intros [].
  - rewrite env_rows_ok. auto.
Qed.

End PoolListProperties.

Lemma poolList_lines_witness :
  poolList (["prod"; "dev"], None)
    (fun e => if String.eqb e "prod" then (["web"; "worker"], None) else ([], None))
    (fun e p => (["api"; "admin"], None)) ""
  = Ok ["ENV | POOL | APPS "; "prod | web | api,admin"; "prod | worker | api,admin"; "dev |  | "].
Proof.
  rewrite (proj1 (poolList_lines (["prod"; "dev"], None)
              (fun e => if String.eqb e "prod" then (["web"; "worker"], None) else ([], None))
              (fun e p => (["api"; "admin"], None))
              ltac:(intros e; simpl; by destruct (String.eqb e "prod")) ltac:(done) "" eq_refl)).
  vm_compute. reflexivity.
Defined.

Lemma config_commands_args_witness :
  configSet demo_exists "prod" ["web"; "PORT=80"; "DEBUG=1"] = Ok (CallConfigSet "web" "prod" ["PORT=80"; "DEBUG=1"]).
Proof. apply (config_commands_args demo_exists "prod" "web" ["PORT=80"; "DEBUG=1"]); try discriminate; reflexivity. Defined.
